(** * formMachine: the form workflow statechart of src/App.js

    The repository defines one xstate machine, [formMachine] (App.js, lines
    34-92), and drives it from a React view.  This development embeds the
    machine definition as data (state nodes, their [on] tables, [entry]
    lists, the [invoke] of the submission service and the named [assign]
    actions) together with the part of xstate's transition semantics that
    this definition exercises, and proves the properties of the workflow
    over that embedding. *)

From stdpp Require Import gmap strings list.

Open Scope string_scope.

(** ** Data model *)

(** [context] of the machine: two JS objects used as maps from field key to
    text (App.js, lines 37-40). *)
Record Context := mkContext {
  values : gmap string string;
  errors : gmap string string
}.

(** An event object as the actions read it: [e.type], the [key] and
    [value] that [send("CHANGE", {key, value})] attaches (App.js, line 160),
    and the [data] that xstate attaches to the completion events of an
    invoked promise.  Fields that a given event does not carry are never
    read by the handler of that event. *)
Module Event.
Record t := mk {
  type : string;
  key : string;
  value : string;
  data : gmap string string
}.
End Event.

(** State nodes of the definition, named by their keys (App.js, lines
    41-73); [pristine] and [error] are the children of [editing]. *)
Inductive StateNode := editing | pristine | error | submitting | success.

#[global] Instance StateNode_eq_dec : EqDecision StateNode.
Proof. solve_decision. Defined.

(** [state.value]: the active leaf, written as the spec writes it. *)
Inductive EditingValue := Pristine | Error.
Inductive StateValue :=
  | Editing (sub : EditingValue)
  | Submitting
  | Success.

#[global] Instance EditingValue_eq_dec : EqDecision EditingValue.
Proof. solve_decision. Defined.
#[global] Instance StateValue_eq_dec : EqDecision StateValue.
Proof. solve_decision. Defined.

(** A machine state as the view reads it: [state.value], [state.context]. *)
Record State := mkState {
  value : StateValue;
  context : Context
}.

(** ** Actions: [assign] with a property assigner *)

(** [assign({values: f, errors: g})]: each listed property is recomputed from
    the context the action receives, an unlisted property is kept. *)
Record Assigner := mkAssigner {
  assign_values : option (Context -> Event.t -> gmap string string);
  assign_errors : option (Context -> Event.t -> gmap string string)
}.

Definition assign (a : Assigner) (ctx : Context) (e : Event.t) : Context :=
  {| values := from_option (fun f => f ctx e) (values ctx) (assign_values a);
     errors := from_option (fun f => f ctx e) (errors ctx) (assign_errors a) |}.

(** Lookup in an object literal written as a list of properties. *)
Fixpoint prop {A} (k : string) (o : list (string * A)) : option A :=
  match o with
  | [] => None
  | (k', a) :: o' => if String.eqb k k' then Some a else prop k o'
  end.

(** ** The machine definition *)

Module formMachine.

(** [initial: "editing"], and [initial: "pristine"] inside [editing]. *)
Definition initial : StateNode := editing.

Definition initial_of (n : StateNode) : option StateNode :=
  match n with
  | editing => Some pristine
  | _ => None
  end.

(** [context: {values: {}, errors: {}}]. *)
Definition context : Context := {| values := ∅; errors := ∅ |}.

Record TransitionConfig := mkTransition {
  target : option StateNode;
  actions : list string
}.

(** Event type of the completion of the invoked service [src]. *)
Definition doneInvoke (src : string) : string := "done.invoke." ++ src.
Definition errorPlatform (src : string) : string := "error.platform." ++ src.

(** [invoke.src] of [submitting]; the invocation has no [id] of its own and
    is identified by its source name. *)
Definition invoke_src : string := "onSubmit".

(** The [on] table of each node; [onDone] and [onError] of the [invoke]
    are the transitions on the two completion events. *)
Definition on (n : StateNode) : list (string * TransitionConfig) :=
  match n with
  | editing =>
      [ ("CHANGE", {| target := None; actions := ["onChange"] |});
        ("SUBMIT", {| target := Some submitting; actions := [] |}) ]
  | pristine => []
  | error => []
  | submitting =>
      [ (doneInvoke invoke_src, {| target := Some success; actions := [] |});
        (errorPlatform invoke_src,
          {| target := Some error; actions := ["onError"] |}) ]
  | success =>
      [ ("AGAIN", {| target := Some editing; actions := [] |}) ]
  end.

Definition entry (n : StateNode) : list string :=
  match n with
  | pristine => ["clearForm"]
  | _ => []
  end.

(** The three named actions (App.js, lines 76-90). *)
Definition onChange : Assigner :=
  {| assign_values :=
       Some (fun ctx e => <[ Event.key e := Event.value e ]> (values ctx));
     assign_errors := None |}.

Definition clearForm : Assigner :=
  {| assign_values := Some (fun _ _ => ∅);
     assign_errors := Some (fun _ _ => ∅) |}.

Definition onError : Assigner :=
  {| assign_values := None;
     assign_errors := Some (fun _ctx e => Event.data e) |}.

Definition options_actions : list (string * Assigner) :=
  [ ("onChange", onChange); ("clearForm", clearForm); ("onError", onError) ].

End formMachine.

(** ** Transition semantics *)

(** The active nodes of a state value, outermost first. *)
Definition getStateNodes (v : StateValue) : list StateNode :=
  match v with
  | Editing Pristine => [editing; pristine]
  | Editing Error => [editing; error]
  | Submitting => [submitting]
  | Success => [success]
  end.

(** The state value reached by targeting a node: a compound node is
    entered through its [initial] child. *)
Definition leafValue (n : StateNode) : StateValue :=
  match n with
  | editing => Editing Pristine
  | pristine => Editing Pristine
  | error => Editing Error
  | submitting => Submitting
  | success => Success
  end.

Definition resolveTarget (n : StateNode) : StateValue :=
  leafValue (default n (formMachine.initial_of n)).

(** The transition an event type selects: the innermost active node whose
    [on] table lists the type wins. *)
Definition selectTransition (v : StateValue) (ty : string)
  : option formMachine.TransitionConfig :=
  foldr (fun n inner =>
           match inner with
           | Some t => Some t
           | None => prop ty (formMachine.on n)
           end)
        None (getStateNodes v).

(** The event types some active node handles ([state.nextEvents]). *)
Definition nextEvents (v : StateValue) : list string :=
  flat_map (fun n => (formMachine.on n).*1) (getStateNodes v).

(** Run a list of named actions left to right; a name without an
    implementation changes nothing. *)
Definition execActions (names : list string) (ctx : Context) (e : Event.t)
  : Context :=
  foldl (fun c name =>
           match prop name formMachine.options_actions with
           | Some a => assign a c e
           | None => c
           end)
        ctx names.

(** The nodes entered by a move from [v] to [v']: those active after and
    not before. *)
Definition entrySet (v v' : StateValue) : list StateNode :=
  filter (fun n => n ∉ getStateNodes v) (getStateNodes v').

(** The state [machine.transition(state, event)] returns for an event it
    accepts; [machine_transition] below adds the check that comes first. *)
Definition transition (s : State) (e : Event.t) : State :=
  match selectTransition (value s) (Event.type e) with
  | None => s
  | Some t =>
      match formMachine.target t with
      | None =>
          {| value := value s;
             context := execActions (formMachine.actions t) (context s) e |}
      | Some n =>
          let v' := resolveTarget n in
          {| value := v';
             context :=
               execActions
                 (formMachine.actions t
                    ++ flat_map formMachine.entry (entrySet (value s) v'))
                 (context s) e |}
      end
  end.




(** The state a machine starts in when its context is [ctx]: every node of
    the initial configuration is entered. *)
Definition initEvent : Event.t :=
  {| Event.type := "xstate.init"; Event.key := ""; Event.value := "";
     Event.data := ∅ |}.

Definition getInitialState (ctx : Context) : State :=
  let v := resolveTarget formMachine.initial in
  {| value := v;
     context :=
       execActions (flat_map formMachine.entry (getStateNodes v)) ctx initEvent |}.

Definition initialState : State := getInitialState formMachine.context.

(** ** Events of the command interface and of the service *)

Definition CHANGE (k v : string) : Event.t :=
  {| Event.type := "CHANGE"; Event.key := k; Event.value := v; Event.data := ∅ |}.

Definition SUBMIT : Event.t :=
  {| Event.type := "SUBMIT"; Event.key := ""; Event.value := ""; Event.data := ∅ |}.

Definition AGAIN : Event.t :=
  {| Event.type := "AGAIN"; Event.key := ""; Event.value := ""; Event.data := ∅ |}.


(** How the promise returned by the [onSubmit] service settles. *)
Inductive Outcome :=
  | Resolved (payload : gmap string string)
  | Rejected (payload : gmap string string).

(** The completion event xstate feeds back into the machine. *)
Definition settled (o : Outcome) : Event.t :=
  match o with
  | Resolved d =>
      {| Event.type := formMachine.doneInvoke formMachine.invoke_src;
         Event.key := ""; Event.value := ""; Event.data := d |}
  | Rejected d =>
      {| Event.type := formMachine.errorPlatform formMachine.invoke_src;
         Event.key := ""; Event.value := ""; Event.data := d |}
  end.

(** A run of the machine over a sequence of events. *)
Definition run (s : State) (es : list Event.t) : State := foldl transition s es.

(** Configurations reachable from the initial state by events of any kind,
    dispatched or fed back by the service. *)
Inductive reachable : State -> Prop :=
  | reachable_init : reachable initialState
  | reachable_step s e : reachable s -> reachable (transition s e).

(** ** The transition table as a relation *)

(** The five rows of the workflow's table, and a sixth for an event whose
    type no active node lists. *)
Inductive step : State -> Event.t -> State -> Prop :=
  | step_CHANGE sub ctx e :
      Event.type e = "CHANGE" ->
      step {| value := Editing sub; context := ctx |} e
           {| value := Editing sub;
              context := {| values := <[ Event.key e := Event.value e ]> (values ctx);
                            errors := errors ctx |} |}
  | step_SUBMIT sub ctx e :
      Event.type e = "SUBMIT" ->
      step {| value := Editing sub; context := ctx |} e
           {| value := Submitting; context := ctx |}
  | step_done ctx e :
      Event.type e = "done.invoke.onSubmit" ->
      step {| value := Submitting; context := ctx |} e
           {| value := Success; context := ctx |}
  | step_error ctx e :
      Event.type e = "error.platform.onSubmit" ->
      step {| value := Submitting; context := ctx |} e
           {| value := Editing Error;
              context := {| values := values ctx; errors := Event.data e |} |}
  | step_AGAIN ctx e :
      Event.type e = "AGAIN" ->
      step {| value := Success; context := ctx |} e
           {| value := Editing Pristine;
              context := {| values := ∅; errors := ∅ |} |}
  | step_ignored s e :
      Event.type e ∉ nextEvents (value s) ->
      step s e s.

(** The invariant behind the error display: a pristine form has no
    errors. *)
Definition pristine_clean (s : State) : Prop :=
  value s = Editing Pristine -> errors (context s) = ∅.

(** The two events the form itself sends while it is shown. *)
Definition edit_or_submit (e : Event.t) : Prop :=
  Event.type e = "CHANGE" \/ Event.type e = "SUBMIT".

(** A session in which the service rejects a submission and the user
    submits again. *)
Definition reams_error : gmap string string :=
  {[ "reams" := "Not enough reams!" ]}.

Definition resubmit_trace : list Event.t :=
  [ CHANGE "reams" "50"; SUBMIT; settled (Rejected reams_error); SUBMIT ].

(** A starting context that already holds a value. *)
Definition prefilled : Context :=
  {| values := {[ "name" := "Jim" ]}; errors := ∅ |}.

(** ** The sample submission service (App.js, lines 97-142) *)

Definition salesTeam : list string :=
  [ "Jim Halper"; "Dwight Schrute"; "Phyllis Vance"; "Stanley Hudson" ].

(** A property read [o.k] on one of the context's objects gives the text
    bound to [k], or [undefined] when [k] is absent; it is truthy when it is
    a non-empty text. *)
Definition truthy (o : option string) : bool :=
  match o with
  | Some s => negb (String.eqb s "")
  | None => false
  end.

(** [l.includes(x)] for a property read [x]: strict equality with an
    element of [l], which [undefined] never has. *)
Definition includes (l : list string) (o : option string) : bool :=
  match o with
  | Some s => existsb (String.eqb s) l
  | None => false
  end.

(** [x === c] for a property read [x] and a text [c]. *)
Definition strict_eq (o : option string) (c : string) : bool :=
  match o with
  | Some s => String.eqb s c
  | None => false
  end.

(** The [errors] object that [onSubmit] fills (App.js, lines 107-121).
    [below_100] stands for the comparison [values.reams < 100], which
    converts the text to a double before comparing; it is only evaluated on
    a truthy [values.reams]. *)
Definition onSubmit_errors (below_100 : string -> bool)
    (values : gmap string string) : gmap string string :=
  let errors : gmap string string := ∅ in
  let errors :=
    if negb (truthy (values !! "name"))
       || negb (includes salesTeam (values !! "name"))
    then <[ "name" := "That person is not in the sales team!" ]> errors
    else errors in
  let errors :=
    if negb (truthy (values !! "reams"))
       || from_option below_100 false (values !! "reams")
    then <[ "reams" := "Not enough reams!" ]> errors
    else errors in
  let errors :=
    if negb (truthy (values !! "company"))
    then <[ "company" := "Which company did you sell to?" ]> errors
    else if strict_eq (values !! "company") "Dunder Mifflin"
    then <[ "company" := "You can't sell to yourself!" ]> errors
    else errors in
  errors.

(** [onSubmit({values})]: how the promise settles once the timer has
    fired.  It rejects with the errors when there is at least one, and
    resolves with [true] otherwise; [true] has no fields and no handler
    reads it, so the resolved payload is left empty here. *)
Definition onSubmit (below_100 : string -> bool) (ctx : Context) : Outcome :=
  let errors := onSubmit_errors below_100 (values ctx) in
  if decide (0 < size errors) then Rejected errors else Resolved ∅.

(** The comparison with 100 on texts that are plain decimal numerals, where
    the conversion to a double is exact as far as the comparison goes.  It
    serves the sample sessions below, whose reams are such numerals; on any
    other text it answers [false], which is not always what the conversion
    gives. *)
Definition digit_value (c : Ascii.ascii) : option nat :=
  let n := Ascii.nat_of_ascii c in
  if decide (48 <= n <= 57) then Some (n - 48) else None.

Fixpoint numeral_value (acc : nat) (s : string) : option nat :=
  match s with
  | EmptyString => Some acc
  | String c s' =>
      match digit_value c with
      | Some d => numeral_value (Nat.min 100 (10 * acc + d)) s'
      | None => None
      end
  end.

Definition numeral_below_100 (s : string) : bool :=
  match numeral_value 0 s with
  | Some n => bool_decide (n < 100)
  | None => false
  end.

(** ** The interpreter: the machine with a submission service
    ([useMachine(formMachine, {services: {onSubmit}})], App.js, line 145) *)

(** A running machine: its current state and, while [submitting] is active,
    the outcome of the service call made when it was entered, not yet
    delivered. *)
Record Running := mkRunning {
  machine : State;
  pending : option Outcome
}.

(** The service of [submitting] is called with the context when the node is
    entered, and dropped when the node is no longer active. *)
Definition invoke (service : Context -> Outcome) (entered : list StateNode)
    (s' : State) (before : option Outcome) : option Outcome :=
  if bool_decide (submitting ∈ entered) then Some (service (context s'))
  else if bool_decide (submitting ∈ getStateNodes (value s')) then before
  else None.

Definition start (service : Context -> Outcome) : Running :=
  {| machine := initialState;
     pending :=
       invoke service (getStateNodes (value initialState)) initialState None |}.

(** [send(event)]. *)
Definition send (service : Context -> Outcome) (r : Running) (e : Event.t)
  : Running :=
  let s' := transition (machine r) e in
  {| machine := s';
     pending :=
       invoke service (entrySet (value (machine r)) (value s')) s' (pending r) |}.

(** The pending promise settles and its completion event is sent. *)
Definition complete (service : Context -> Outcome) (r : Running) : Running :=
  match pending r with
  | Some o => send service r (settled o)
  | None => r
  end.

(** The events the view sends (App.js, lines 152, 160 and 268). *)
Definition from_view (e : Event.t) : Prop :=
  Event.type e = "CHANGE" \/ Event.type e = "SUBMIT" \/ Event.type e = "AGAIN".

(** What a session can reach: the view sends its events in any order and
    at any time, and a pending submission completes at some point. *)
Inductive session (service : Context -> Outcome) : Running -> Prop :=
  | session_start : session service (start service)
  | session_send r e :
      session service r -> from_view e -> session service (send service r e)
  | session_complete r :
      session service r -> session service (complete service r).

(** ** The view (App.js, lines 144-279) *)

Module Index.

(** [state.matches(path)], the path given by its keys: the path leads from
    the root to an active node. *)
Definition key (n : StateNode) : string :=
  match n with
  | editing => "editing"
  | pristine => "pristine"
  | error => "error"
  | submitting => "submitting"
  | success => "success"
  end.

Fixpoint leads (path active : list string) : bool :=
  match path, active with
  | [], _ => true
  | k :: path', a :: active' => String.eqb k a && leads path' active'
  | _ :: _, [] => false
  end.

Definition matches (s : State) (path : list string) : bool :=
  leads path (key <$> getStateNodes (value s)).

(** The form is rendered (line 186). *)
Definition showsForm (s : State) : bool :=
  matches s ["editing"] || matches s ["submitting"].

(** The thanks panel is rendered (line 245). *)
Definition showsSuccess (s : State) : bool := matches s ["success"].

(** [isLoading] of the Submit button (line 234) and of the Add more sales
    button (line 265). *)
Definition submitLoading (s : State) : bool := matches s ["submitting"].
Definition againLoading (s : State) : bool := matches s ["editing"; "submitting"].

(** [value={values.f || ""}] and [isInvalid={!!errors.f}] of the input of
    field [f], and the text of its error message. *)
Definition inputValue (s : State) (f : string) : string :=
  let v := values (context s) !! f in
  if truthy v then default "" v else "".

Definition inputInvalid (s : State) (f : string) : bool :=
  truthy (errors (context s) !! f).

Definition errorMessage (s : State) (f : string) : option string :=
  errors (context s) !! f.

(** [handleChange] on the input named [name] holding [text], and
    [handleSubmit]. *)
Definition handleChange (name text : string) : Event.t := CHANGE name text.
Definition handleSubmit : Event.t := SUBMIT.

(** The three inputs of the form. *)
Definition fields : list string := ["name"; "reams"; "company"].

End Index.

(** A sale that passes every check of [onSubmit]. *)
Definition valid_sale (below_100 : string -> bool) (vals : gmap string string)
  : Prop :=
  (exists n, vals !! "name" = Some n /\ n ∈ salesTeam) /\
  (exists r, vals !! "reams" = Some r /\ r <> "" /\ below_100 r = false) /\
  (exists c, vals !! "company" = Some c /\ c <> "" /\ c <> "Dunder Mifflin").

(** The outcome is a resolution. *)
Definition resolves (o : Outcome) : Prop := exists d, o = Resolved d.

(** The three conditions under which [onSubmit] records an error, as it
    evaluates them. *)
Definition name_fails (vals : gmap string string) : bool :=
  negb (truthy (vals !! "name")) || negb (includes salesTeam (vals !! "name")).

Definition reams_fail (below_100 : string -> bool) (vals : gmap string string)
  : bool :=
  negb (truthy (vals !! "reams")) || from_option below_100 false (vals !! "reams").

Definition company_fails (vals : gmap string string) : bool :=
  negb (truthy (vals !! "company"))
  || strict_eq (vals !! "company") "Dunder Mifflin".

(** What holds of a running machine throughout a session. *)
Definition consistent (service : Context -> Outcome) (r : Running) : Prop :=
  (value (machine r) = Submitting ->
   pending r = Some (service (context (machine r)))) /\
  (value (machine r) <> Submitting -> pending r = None) /\
  (value (machine r) = Success -> resolves (service (context (machine r)))) /\
  (value (machine r) = Editing Error ->
   exists c, service c = Rejected (errors (context (machine r)))) /\
  (errors (context (machine r)) <> ∅ ->
   exists c, service c = Rejected (errors (context (machine r)))).

(** A sample sale and a sample session. *)
Definition good_sale : gmap string string :=
  <[ "company" := "Acme" ]> (<[ "reams" := "200" ]> {[ "name" := "Dwight Schrute" ]}).

Definition poor_sale : gmap string string :=
  <[ "company" := "Dunder Mifflin" ]> (<[ "reams" := "50" ]> {[ "name" := "Jim Halpert" ]}).

(** A session written down: what the view sends, and the points at which
    the pending submission completes. *)
Inductive Move :=
  | View (e : Event.t)
  | Settle.

Definition move (service : Context -> Outcome) (r : Running) (m : Move)
  : Running :=
  match m with
  | View e => send service r e
  | Settle => complete service r
  end.

Definition play (service : Context -> Outcome) (ms : list Move) : Running :=
  foldl (move service) (start service) ms.

Definition view_move (m : Move) : Prop :=
  match m with
  | View e => from_view e
  | Settle => True
  end.

(** Three sessions with the sample service: a sale submitted and not yet
    judged, a poor sale judged, a good sale judged. *)
Definition sample_service : Context -> Outcome := onSubmit numeral_below_100.

Definition in_flight : list Move :=
  [ View (Index.handleChange "reams" "50"); View Index.handleSubmit ].

Definition poor_judged : list Move :=
  [ View (Index.handleChange "name" "Jim Halpert");
    View (Index.handleChange "reams" "50");
    View (Index.handleChange "company" "Dunder Mifflin");
    View Index.handleSubmit; Settle ].

Definition good_judged : list Move :=
  [ View (Index.handleChange "name" "Dwight Schrute");
    View (Index.handleChange "reams" "200");
    View (Index.handleChange "company" "Acme");
    View Index.handleSubmit; Settle ].

(** ** Lemmas on the embedding *)

Lemma prop_None {A} (k : string) (o : list (string * A)) :
  k ∉ o.*1 -> prop k o = None.
Proof.
  induction o as [|[k' a] o IH]; simpl; intros Hk; [reflexivity|].
  apply not_elem_of_cons in Hk as [Hne Hk].
  destruct (String.eqb_spec k k') as [->|_]; [contradiction|].
  by apply IH.
Qed.

Lemma selectTransition_None (v : StateValue) (ty : string) :
  ty ∉ nextEvents v -> selectTransition v ty = None.
Proof.
  unfold nextEvents, selectTransition.
  induction (getStateNodes v) as [|n ns IH]; simpl; intros Hty; [reflexivity|].
  apply not_elem_of_app in Hty as [Hn Hns].
  rewrite (IH Hns). by apply prop_None.
Qed.

Lemma nextEvents_Editing sub : nextEvents (Editing sub) = ["CHANGE"; "SUBMIT"].
Proof. by destruct sub. Qed.

Lemma nextEvents_Submitting :
  nextEvents Submitting = ["done.invoke.onSubmit"; "error.platform.onSubmit"].
Proof. reflexivity. Qed.

Lemma nextEvents_Success : nextEvents Success = ["AGAIN"].
Proof. reflexivity. Qed.

Lemma transition_ignored (s : State) (e : Event.t) :
  Event.type e ∉ nextEvents (value s) -> transition s e = s.
Proof.
  intros H. unfold transition. by rewrite (selectTransition_None _ _ H).
Qed.

Ltac by_type e ty :=
  destruct (String.eqb_spec (Event.type e) ty) as [?Hty | ?Hty].

(** Closes [ty ∉ [a; b; ...]] from hypotheses [ty <> a], [ty <> b], ... *)
Ltac not_listed :=
  let Hin := fresh "Hin" in
  intros Hin;
  repeat (apply elem_of_cons in Hin as [Hin | Hin]; [congruence|]);
  by apply elem_of_nil in Hin.

(** The transition function moves along the table, whatever the event. *)
Lemma transition_step (s : State) (e : Event.t) : step s e (transition s e).
Proof.
  destruct s as [v ctx]; destruct v as [sub| |].
  - by_type e "CHANGE".
    { replace (transition _ e) with
        {| value := Editing sub;
           context := {| values := <[ Event.key e := Event.value e ]> (values ctx);
                         errors := errors ctx |} |}; [by constructor|].
      unfold transition, selectTransition. destruct sub; simpl; by rewrite Hty. }
    by_type e "SUBMIT".
    { replace (transition _ e) with {| value := Submitting; context := ctx |};
        [by constructor|].
      unfold transition, selectTransition. destruct sub; simpl; by rewrite Hty0. }
    assert (Event.type e ∉ nextEvents (Editing sub)) as Hno.
    { rewrite nextEvents_Editing. not_listed. }
    rewrite transition_ignored; [by constructor | done].
  - by_type e "done.invoke.onSubmit".
    { replace (transition _ e) with {| value := Success; context := ctx |};
        [by constructor|].
      unfold transition, selectTransition. simpl. by rewrite Hty. }
    by_type e "error.platform.onSubmit".
    { replace (transition _ e) with
        {| value := Editing Error;
           context := {| values := values ctx; errors := Event.data e |} |};
        [by constructor|].
      unfold transition, selectTransition. simpl. by rewrite Hty0. }
    assert (Event.type e ∉ nextEvents Submitting) as Hno.
    { rewrite nextEvents_Submitting. not_listed. }
    rewrite transition_ignored; [by constructor | done].
  - by_type e "AGAIN".
    { replace (transition _ e) with
        {| value := Editing Pristine;
           context := {| values := ∅; errors := ∅ |} |}; [by constructor|].
      unfold transition, selectTransition. simpl. by rewrite Hty. }
    assert (Event.type e ∉ nextEvents Success) as Hno.
    { rewrite nextEvents_Success. not_listed. }
    rewrite transition_ignored; [by constructor | done].
Qed.

(** ** The workflow's properties *)

(** C1: a freshly constructed machine is in Editing.Pristine with context
    {values: {}, errors: {}}. *)
Theorem initial_state_pristine_empty :
  initialState = {| value := Editing Pristine;
                    context := {| values := ∅; errors := ∅ |} |}.
Proof. reflexivity. Qed.


(** Two changes from the initial state accumulate, and the machine stays in
    Editing.Pristine. *)
Example change_accumulates :
  run initialState [CHANGE "name" "Jim"; CHANGE "reams" "150"]
  = {| value := Editing Pristine;
       context := {| values := <[ "reams" := "150" ]> {[ "name" := "Jim" ]};
                     errors := ∅ |} |}.
Proof. reflexivity. Qed.

(** C2: in either Editing substate, CHANGE{key, value} binds key to value in
    values, keeps every other key, keeps errors, and keeps the state with
    its substate. *)
Theorem change_binds_key (ctx : Context) (sub : EditingValue) (k v : string) :
  let s' := transition {| value := Editing sub; context := ctx |} (CHANGE k v) in
  value s' = Editing sub /\
  values (context s') = <[ k := v ]> (values ctx) /\
  values (context s') !! k = Some v /\
  (forall k', k' <> k -> values (context s') !! k' = values ctx !! k') /\
  errors (context s') = errors ctx.
Proof.
  assert (transition {| value := Editing sub; context := ctx |} (CHANGE k v)
          = {| value := Editing sub;
               context := {| values := <[ k := v ]> (values ctx);
                             errors := errors ctx |} |}) as ->
    by (by destruct sub).
  simpl. repeat split.
  - apply lookup_insert_eq.
  - intros k' Hk'. by apply lookup_insert_ne.
Qed.

(** C3: from either Editing substate, after SUBMIT the machine is in
    Submitting, and a rejection with payload E moves it to Editing.Error with
    errors exactly E (whatever errors held before) and values as they were
    before the submission. *)
Theorem reject_replaces_errors (ctx : Context) (sub : EditingValue)
    (E : gmap string string) :
  let submitted := transition {| value := Editing sub; context := ctx |} SUBMIT in
  submitted = {| value := Submitting; context := ctx |} /\
  transition submitted (settled (Rejected E))
  = {| value := Editing Error;
       context := {| values := values ctx; errors := E |} |}.
Proof. destruct sub; split; reflexivity. Qed.

(** C4: SUBMIT from either Editing substate moves to Submitting with the
    context unchanged, and a successful resolution then moves to Success
    with the context still unchanged: the resolved payload is not stored. *)
Theorem submit_then_resolve (ctx : Context) (sub : EditingValue)
    (payload : gmap string string) :
  let submitted := transition {| value := Editing sub; context := ctx |} SUBMIT in
  submitted = {| value := Submitting; context := ctx |} /\
  transition submitted (settled (Resolved payload))
  = {| value := Success; context := ctx |}.
Proof. destruct sub; split; reflexivity. Qed.

(** C5: AGAIN from Success moves to Editing.Pristine and resets the context
    to values = {} and errors = {}, whatever it held. *)
Theorem again_clears_form (ctx : Context) :
  transition {| value := Success; context := ctx |} AGAIN
  = {| value := Editing Pristine;
       context := {| values := ∅; errors := ∅ |} |}.
Proof. reflexivity. Qed.

Lemma edit_or_submit_ignored (v : StateValue) (ctx : Context) (e : Event.t) :
  v = Submitting \/ v = Success ->
  edit_or_submit e ->
  transition {| value := v; context := ctx |} e = {| value := v; context := ctx |}.
Proof.
  intros Hv He. apply transition_ignored. simpl.
  destruct Hv as [-> | ->], He as [-> | ->];
    rewrite ?nextEvents_Submitting, ?nextEvents_Success; not_listed.
Qed.

(** C6: in Submitting and in Success, a CHANGE or a SUBMIT changes neither
    the state nor the context, and neither does any sequence of them. *)
Theorem edit_or_submit_noop (v : StateValue) (ctx : Context) :
  v = Submitting \/ v = Success ->
  (forall e, edit_or_submit e ->
     transition {| value := v; context := ctx |} e
     = {| value := v; context := ctx |}) /\
  (forall es, Forall edit_or_submit es ->
     run {| value := v; context := ctx |} es
     = {| value := v; context := ctx |}).
Proof.
  intros Hv. split.
  - intros e He. by apply edit_or_submit_ignored.
  - intros es Hes. induction Hes as [|e es He _ IH]; [reflexivity|].
    unfold run in *. simpl. by rewrite edit_or_submit_ignored.
Qed.

Lemma edit_or_submit_noop_witness :
  (forall es, Forall edit_or_submit es ->
     run {| value := Submitting; context := prefilled |} es
     = {| value := Submitting; context := prefilled |}) /\
  run {| value := Success; context := prefilled |} [SUBMIT; CHANGE "name" "Pam"]
  = {| value := Success; context := prefilled |}.
Proof.
  split.
  - apply (edit_or_submit_noop Submitting prefilled). left. reflexivity.
  - apply (edit_or_submit_noop Success prefilled).
    + right. reflexivity.
    + apply Forall_cons; split; [right; reflexivity|].
      apply Forall_cons; split; [left; reflexivity|]. apply Forall_nil_2.
Defined.

(** *** Errors along reachable configurations *)

Lemma reachable_run (s : State) (es : list Event.t) :
  reachable s -> reachable (run s es).
Proof.
  revert s. induction es as [|e es IH]; intros s Hs; [exact Hs|].
  apply IH. by constructor.
Qed.

Lemma step_pristine_clean (s s' : State) (e : Event.t) :
  step s e s' -> pristine_clean s -> pristine_clean s'.
Proof.
  unfold pristine_clean.
  destruct 1 as [sub ctx e _ | | | | | ]; simpl; intros Hclean Hval;
    try discriminate; try reflexivity.
  - apply Hclean. exact Hval.
  - by apply Hclean.
Qed.

Lemma reachable_pristine_clean (s : State) : reachable s -> pristine_clean s.
Proof.
  induction 1 as [|s e _ IH].
  - intros _. reflexivity.
  - eapply step_pristine_clean; [apply transition_step | exact IH].
Qed.

Lemma resubmit_trace_state :
  run initialState resubmit_trace
  = {| value := Submitting;
       context := {| values := {[ "reams" := "50" ]}; errors := reams_error |} |}.
Proof. reflexivity. Qed.

(** C7, as stated, fails: after a rejected submission and a second SUBMIT
    the machine is in Submitting and errors still holds the rejection. *)
Lemma errors_outside_error_state :
  ~ (forall s, reachable s ->
       errors (context s) <> ∅ -> value s = Editing Error).
Proof.
  intros Hclaim.
  specialize (Hclaim (run initialState resubmit_trace)
                (reachable_run _ _ reachable_init)).
  rewrite resubmit_trace_state in Hclaim. simpl in Hclaim.
  discriminate Hclaim. apply map_non_empty_singleton.
Qed.

(** C7, amended: in every configuration reachable from the initial state,
    errors is non-empty only when the state is Editing.Error, Submitting or
    Success; in Editing.Pristine it is empty. *)
Theorem errors_only_after_rejection (s : State) :
  reachable s ->
  errors (context s) <> ∅ ->
  value s = Editing Error \/ value s = Submitting \/ value s = Success.
Proof.
  intros Hs Herr. pose proof (reachable_pristine_clean s Hs) as Hclean.
  destruct (value s) as [[|]| |] eqn:Hv; auto.
  exfalso. apply Herr, Hclean. exact Hv.
Qed.

Lemma errors_only_after_rejection_witness :
  let s := run initialState resubmit_trace in
  value s = Editing Error \/ value s = Submitting \/ value s = Success.
Proof.
  apply (errors_only_after_rejection (run initialState resubmit_trace)).
  - apply reachable_run, reachable_init.
  - rewrite resubmit_trace_state. apply map_non_empty_singleton.
Defined.




(** C9, as stated, fails: a machine started on a context that already holds
    a value does not report that context. *)
Lemma initial_context_not_kept :
  context (getInitialState prefilled) <> prefilled.
Proof.
  intros H. apply (f_equal values) in H. simpl in H.
  symmetry in H. by apply map_non_empty_singleton in H.
Qed.

(** C9, amended: whatever context the machine is started on, it initially
    reports state Editing.Pristine and context {values: {}, errors: {}},
    because entering Pristine runs clearForm. *)
Theorem initial_context_cleared (C : Context) :
  getInitialState C
  = {| value := Editing Pristine;
       context := {| values := ∅; errors := ∅ |} |}.
Proof. reflexivity. Qed.

(** C10: SUBMIT from Editing.Error moves to Submitting with errors
    unchanged, and a successful resolution then moves to Success with errors
    still unchanged. *)
Theorem stale_errors_persist (ctx : Context) (payload : gmap string string) :
  let submitted := transition {| value := Editing Error; context := ctx |} SUBMIT in
  let resolved := transition submitted (settled (Resolved payload)) in
  value submitted = Submitting /\
  errors (context submitted) = errors ctx /\
  value resolved = Success /\
  errors (context resolved) = errors ctx.
Proof. repeat split; reflexivity. Qed.

(** ** The submission service *)

Section Service.
Variable below_100 : string -> bool.

Ltac split_checks :=
  unfold onSubmit_errors;
  repeat match goal with
         | |- context [if ?b then _ else _] => destruct b eqn:?
         end.

Lemma errors_lookup_name vals :
  onSubmit_errors below_100 vals !! "name"
  = if name_fails vals then Some "That person is not in the sales team!" else None.
Proof. unfold name_fails. split_checks; by simplify_map_eq. Qed.

Lemma errors_lookup_reams vals :
  onSubmit_errors below_100 vals !! "reams"
  = if reams_fail below_100 vals then Some "Not enough reams!" else None.
Proof. unfold reams_fail. split_checks; by simplify_map_eq. Qed.

Lemma errors_lookup_company vals :
  onSubmit_errors below_100 vals !! "company"
  = if negb (truthy (vals !! "company"))
    then Some "Which company did you sell to?"
    else if strict_eq (vals !! "company") "Dunder Mifflin"
    then Some "You can't sell to yourself!"
    else None.
Proof. split_checks; by simplify_map_eq. Qed.

Lemma errors_lookup_other vals k :
  k ∉ Index.fields -> onSubmit_errors below_100 vals !! k = None.
Proof.
  unfold Index.fields. intros Hk.
  apply not_elem_of_cons in Hk as [? Hk].
  apply not_elem_of_cons in Hk as [? Hk].
  apply not_elem_of_cons in Hk as [? _].
  split_checks; by simplify_map_eq.
Qed.

Lemma errors_empty_iff vals :
  onSubmit_errors below_100 vals = ∅
  <-> name_fails vals = false /\ reams_fail below_100 vals = false
      /\ company_fails vals = false.
Proof.
  split.
  - intros Hempty.
    pose proof (errors_lookup_name vals) as Hn.
    pose proof (errors_lookup_reams vals) as Hr.
    pose proof (errors_lookup_company vals) as Hc.
    rewrite Hempty, lookup_empty in Hn, Hr, Hc.
    unfold company_fails.
    destruct (name_fails vals), (reams_fail below_100 vals),
      (negb (truthy (vals !! "company"))),
      (strict_eq (vals !! "company") "Dunder Mifflin"); done.
  - intros (Hn & Hr & Hc). apply map_eq. intros k. rewrite lookup_empty.
    destruct (decide (k ∈ Index.fields)) as [Hk | Hk];
      [| by apply errors_lookup_other].
    unfold Index.fields in Hk.
    apply elem_of_cons in Hk as [-> | Hk];
      [by rewrite errors_lookup_name, Hn|].
    apply elem_of_cons in Hk as [-> | Hk];
      [by rewrite errors_lookup_reams, Hr|].
    apply elem_of_cons in Hk as [-> | Hk]; [| by apply elem_of_nil in Hk].
    rewrite errors_lookup_company. unfold company_fails in Hc.
    apply orb_false_iff in Hc as [-> ->]. reflexivity.
Qed.

Lemma includes_salesTeam o :
  includes salesTeam o = true <-> exists n, o = Some n /\ n ∈ salesTeam.
Proof.
  destruct o as [n|]; cbn [includes].
  - rewrite existsb_exists. split.
    + intros (x & Hx & Heq). apply String.eqb_eq in Heq as ->.
      exists x. split; [done | by apply list_elem_of_In].
    + intros (x & [= <-] & Hx). exists n.
      split; [by apply list_elem_of_In | apply String.eqb_refl].
  - split; [done | by intros (? & ? & _)].
Qed.

Lemma truthy_Some o : truthy o = true <-> exists s, o = Some s /\ s <> "".
Proof.
  destruct o as [s|]; simpl.
  - destruct (String.eqb_spec s "") as [-> | Hne]; simpl.
    + split; [done | by intros (? & [= <-] & ?)].
    + split; [by exists s | done].
  - split; [done | by intros (? & ? & _)].
Qed.

Lemma name_passes_iff vals :
  name_fails vals = false <-> exists n, vals !! "name" = Some n /\ n ∈ salesTeam.
Proof.
  unfold name_fails.
  rewrite orb_false_iff, !negb_false_iff, includes_salesTeam, truthy_Some.
  split; [by intros [_ ?]|].
  intros (n & Hn & Hin). split; [| by exists n].
  exists n. split; [done|]. intros ->. unfold salesTeam in Hin.
  repeat (apply elem_of_cons in Hin as [Hin | Hin]; [discriminate|]).
  by apply elem_of_nil in Hin.
Qed.

Lemma reams_pass_iff vals :
  reams_fail below_100 vals = false
  <-> exists r, vals !! "reams" = Some r /\ r <> "" /\ below_100 r = false.
Proof.
  unfold reams_fail. rewrite orb_false_iff, negb_false_iff, truthy_Some.
  split.
  - intros ((r & Hr & Hr') & Hlt). exists r. rewrite Hr in Hlt. done.
  - intros (r & Hr & Hr' & Hlt). split; [by exists r | by rewrite Hr].
Qed.

Lemma company_passes_iff vals :
  company_fails vals = false
  <-> exists c, vals !! "company" = Some c /\ c <> "" /\ c <> "Dunder Mifflin".
Proof.
  unfold company_fails. rewrite orb_false_iff, negb_false_iff, truthy_Some.
  split.
  - intros ((c & Hc & Hc') & Hdm). exists c. rewrite Hc in Hdm. simpl in Hdm.
    apply String.eqb_neq in Hdm. done.
  - intros (c & Hc & Hc' & Hdm). split; [by exists c|].
    rewrite Hc. simpl. by apply String.eqb_neq.
Qed.

Lemma checks_pass_iff vals :
  name_fails vals = false /\ reams_fail below_100 vals = false
  /\ company_fails vals = false
  <-> valid_sale below_100 vals.
Proof.
  unfold valid_sale.
  by rewrite name_passes_iff, reams_pass_iff, company_passes_iff.
Qed.

Lemma onSubmit_cases ctx :
  (onSubmit below_100 ctx = Resolved ∅
   /\ onSubmit_errors below_100 (values ctx) = ∅)
  \/ (onSubmit below_100 ctx = Rejected (onSubmit_errors below_100 (values ctx))
      /\ onSubmit_errors below_100 (values ctx) <> ∅).
Proof.
  unfold onSubmit. destruct (decide _) as [Hpos | Hzero].
  - right. split; [done|]. apply map_size_non_empty_iff. lia.
  - left. split; [done|]. apply map_size_empty_iff. lia.
Qed.

(** X1: the service resolves exactly on a valid sale: a name of the sales
    team, a non-empty reams text that is not below 100, and a non-empty
    company other than Dunder Mifflin. *)
Theorem onSubmit_resolves_iff (ctx : Context) :
  resolves (onSubmit below_100 ctx) <-> valid_sale below_100 (values ctx).
Proof.
  rewrite <- checks_pass_iff, <- errors_empty_iff. unfold resolves.
  destruct (onSubmit_cases ctx) as [[-> Hempty] | [-> Hne]].
  - split; [done | by exists ∅].
  - split; [by intros [d [=]] | done].
Qed.

(** X2: a rejection is never empty and names only the three fields of the
    form. *)
Theorem onSubmit_rejection_shape (ctx : Context) (E : gmap string string) :
  onSubmit below_100 ctx = Rejected E ->
  E <> ∅ /\ (forall k, is_Some (E !! k) -> k ∈ Index.fields).
Proof.
  intros Hrej.
  destruct (onSubmit_cases ctx) as [[Hres _] | [Hrej' Hne]]; [congruence|].
  assert (E = onSubmit_errors below_100 (values ctx)) as -> by congruence.
  split; [exact Hne|]. intros k [m Hk].
  destruct (decide (k ∈ Index.fields)) as [|Hout]; [done|].
  rewrite (errors_lookup_other _ _ Hout) in Hk. discriminate.
Qed.

(** X3: a rejection reports every failing field at once: each of the three
    fields has an entry exactly when its own check fails. *)
Theorem onSubmit_reports_each_field (ctx : Context) (E : gmap string string) :
  onSubmit below_100 ctx = Rejected E ->
  (E !! "name" = None
   <-> exists n, values ctx !! "name" = Some n /\ n ∈ salesTeam) /\
  (E !! "reams" = None
   <-> exists r, values ctx !! "reams" = Some r /\ r <> ""
                 /\ below_100 r = false) /\
  (E !! "company" = None
   <-> exists c, values ctx !! "company" = Some c /\ c <> ""
                 /\ c <> "Dunder Mifflin").
Proof.
  intros Hrej.
  destruct (onSubmit_cases ctx) as [[Hres _] | [Hrej' _]]; [congruence|].
  assert (E = onSubmit_errors below_100 (values ctx)) as -> by congruence.
  rewrite <- name_passes_iff, <- reams_pass_iff, <- company_passes_iff.
  rewrite errors_lookup_name, errors_lookup_reams, errors_lookup_company.
  unfold company_fails.
  destruct (name_fails (values ctx)), (reams_fail below_100 (values ctx)),
    (negb (truthy (values ctx !! "company"))),
    (strict_eq (values ctx !! "company") "Dunder Mifflin"); simpl; done.
Qed.

(** X4: a field that is absent and a field left empty are judged alike. *)
Theorem onSubmit_absent_as_empty (ctx : Context) (k : string) :
  onSubmit below_100 {| values := delete k (values ctx); errors := errors ctx |}
  = onSubmit below_100 {| values := <[ k := "" ]> (values ctx);
                          errors := errors ctx |}.
Proof.
  assert (onSubmit_errors below_100 (delete k (values ctx))
          = onSubmit_errors below_100 (<[ k := "" ]> (values ctx))) as Heq.
  { unfold onSubmit_errors. rewrite !lookup_delete, !lookup_insert.
    repeat case_decide; subst; try discriminate; reflexivity. }
  unfold onSubmit. simpl. by rewrite Heq.
Qed.

(** X5: the outcome depends on the context only through the values of the
    three fields: neither other keys of values nor errors matter. *)
Theorem onSubmit_reads_fields_only (ctx ctx' : Context) :
  (forall f, f ∈ Index.fields -> values ctx !! f = values ctx' !! f) ->
  onSubmit below_100 ctx = onSubmit below_100 ctx'.
Proof.
  intros Hsame. unfold onSubmit, onSubmit_errors.
  rewrite !(Hsame "name"), !(Hsame "reams"), !(Hsame "company");
    [reflexivity | unfold Index.fields ..].
  all: repeat first [apply list_elem_of_here | apply list_elem_of_further].
Qed.

End Service.

Lemma onSubmit_rejection_shape_witness :
  onSubmit_errors numeral_below_100 poor_sale <> ∅ /\
  (forall k, is_Some (onSubmit_errors numeral_below_100 poor_sale !! k) ->
             k ∈ Index.fields).
Proof.
  apply (onSubmit_rejection_shape numeral_below_100
           {| values := poor_sale; errors := ∅ |}).
  reflexivity.
Defined.

Lemma onSubmit_reports_each_field_witness :
  let E := onSubmit_errors numeral_below_100 poor_sale in
  (E !! "name" = None
   <-> exists n, poor_sale !! "name" = Some n /\ n ∈ salesTeam) /\
  (E !! "reams" = None
   <-> exists r, poor_sale !! "reams" = Some r /\ r <> ""
                 /\ numeral_below_100 r = false) /\
  (E !! "company" = None
   <-> exists c, poor_sale !! "company" = Some c /\ c <> ""
                 /\ c <> "Dunder Mifflin").
Proof.
  apply (onSubmit_reports_each_field numeral_below_100
           {| values := poor_sale; errors := ∅ |}).
  reflexivity.
Defined.

Lemma onSubmit_reads_fields_only_witness :
  onSubmit numeral_below_100
    {| values := <[ "note" := "rush order" ]> good_sale; errors := reams_error |}
  = onSubmit numeral_below_100 {| values := good_sale; errors := ∅ |}.
Proof.
  apply (onSubmit_reads_fields_only numeral_below_100).
  intros f Hf. simpl. apply lookup_insert_ne. intros <-.
  unfold Index.fields in Hf.
  repeat (apply elem_of_cons in Hf as [Hf | Hf]; [discriminate|]).
  by apply elem_of_nil in Hf.
Defined.

(** ** The machine with its service *)

Lemma entrySet_same (v : StateValue) : entrySet v v = [].
Proof. by destruct v as [[|]| |]. Qed.

Lemma from_view_not_completion (e : Event.t) :
  from_view e ->
  Event.type e <> "done.invoke.onSubmit"
  /\ Event.type e <> "error.platform.onSubmit".
Proof. intros [-> | [-> | ->]]; split; discriminate. Qed.

Section Interpreter.
Variable service : Context -> Outcome.

Lemma start_consistent : consistent service (start service).
Proof.
  unfold consistent, start. simpl. repeat split; try discriminate.
  intros H. by destruct H.
Qed.

Lemma step_consistent (s s' : State) (e : Event.t) (p : option Outcome) :
  step s e s' ->
  from_view e ->
  consistent service {| machine := s; pending := p |} ->
  consistent service {| machine := s';
                pending := invoke service (entrySet (value s) (value s')) s' p |}.
Proof.
  intros Hstep He. apply from_view_not_completion in He as [Hd Hx].
  unfold consistent.
  destruct Hstep as [sub ctx e _ | sub ctx e _ | ctx e Hty | ctx e Hty
                    | ctx e _ | s e _]; simpl;
    intros (Hsub & Hidle & Hok & Herr & Hne); try congruence.
  - rewrite entrySet_same. simpl.
    repeat split; try discriminate; try (by destruct sub); auto.
  - repeat split; try discriminate; try (by destruct sub); auto.
  - repeat split; try discriminate. intros H. by destruct H.
  - rewrite entrySet_same. simpl.
    destruct s as [[[|]| |] ctx]; simpl in *; repeat split;
      try discriminate; try done; auto.
Qed.

Lemma send_consistent (r : Running) (e : Event.t) :
  consistent service r -> from_view e ->
  consistent service (send service r e).
Proof.
  intros Hr He. destruct r as [s p]. unfold send. simpl.
  apply (step_consistent s (transition s e) e p);
    [apply transition_step | done | done].
Qed.

Lemma complete_consistent (r : Running) :
  consistent service r -> consistent service (complete service r).
Proof.
  intros Hr. pose proof Hr as (Hsub & Hidle & Hok & Herr & Hne).
  unfold complete. destruct r as [[v ctx] p]. simpl in *.
  destruct p as [o|]; [| exact Hr].
  destruct (decide (v = Submitting)) as [-> | Hv];
    [| by specialize (Hidle Hv)].
  specialize (Hsub eq_refl) as [= ->].
  unfold consistent, send. simpl.
  destruct (service ctx) as [d | E] eqn:Hout; simpl;
    repeat split; try discriminate; try done.
  - by exists d.
  - by exists ctx.
  - by exists ctx.
Qed.

Lemma session_consistent (r : Running) :
  session service r -> consistent service r.
Proof.
  induction 1 as [| r e _ IH He | r _ IH].
  - apply start_consistent.
  - by apply send_consistent.
  - by apply complete_consistent.
Qed.

Lemma session_play (ms : list Move) :
  Forall view_move ms -> session service (play service ms).
Proof.
  unfold play. induction ms as [|m ms IH] using rev_ind; intros Hms.
  - constructor.
  - apply Forall_app in Hms as [Hms Hm]. apply Forall_inv in Hm.
    rewrite foldl_app. simpl. destruct m as [e|]; simpl.
    + apply session_send; [by apply IH | done].
    + apply session_complete. by apply IH.
Qed.

(** A session never leaves what the machine alone can reach. *)
Lemma session_reachable (r : Running) :
  session service r -> reachable (machine r).
Proof.
  induction 1 as [| r e _ IH _ | r _ IH].
  - apply reachable_init.
  - simpl. by apply reachable_step.
  - unfold complete. destruct (pending r); [simpl; by apply reachable_step | done].
Qed.

(** X6: a submission in flight always has its outcome pending, and when it
    completes the machine leaves Submitting as the service decided on the
    context held since SUBMIT: to Success with the context unchanged, or to
    Editing.Error with the rejection as errors. *)
Theorem submission_settles (r : Running) :
  session service r ->
  value (machine r) = Submitting ->
  pending (complete service r) = None /\
  match service (context (machine r)) with
  | Resolved _ =>
      machine (complete service r)
      = {| value := Success; context := context (machine r) |}
  | Rejected E =>
      machine (complete service r)
      = {| value := Editing Error;
           context := {| values := values (context (machine r));
                         errors := E |} |}
  end.
Proof.
  intros Hr Hv. destruct (session_consistent r Hr) as (Hsub & _).
  specialize (Hsub Hv). unfold complete. rewrite Hsub.
  destruct r as [[v ctx] p]. simpl in *. subst v.
  destruct (service ctx); split; reflexivity.
Qed.

(** X7: the machine is in Success only if the service resolves on the
    context it holds. *)
Theorem success_means_resolved (r : Running) :
  session service r ->
  value (machine r) = Success ->
  resolves (service (context (machine r))).
Proof. intros Hr. by destruct (session_consistent r Hr) as (_ & _ & Hok & _). Qed.

(** X8: in Editing.Error, and whenever errors is not empty, errors is a
    rejection the service gave on some context. *)
Theorem errors_come_from_service (r : Running) :
  session service r ->
  value (machine r) = Editing Error \/ errors (context (machine r)) <> ∅ ->
  exists c, service c = Rejected (errors (context (machine r))).
Proof.
  intros Hr. destruct (session_consistent r Hr) as (_ & _ & _ & Herr & Hne).
  intros [Hv | He]; auto.
Qed.

End Interpreter.

Lemma in_flight_session : session sample_service (play sample_service in_flight).
Proof.
  apply session_play. unfold in_flight.
  repeat (apply Forall_cons; split; [simpl; unfold from_view; simpl; auto|]).
  apply Forall_nil_2.
Qed.

Lemma poor_judged_session :
  session sample_service (play sample_service poor_judged).
Proof.
  apply session_play. unfold poor_judged.
  repeat (apply Forall_cons; split; [simpl; unfold from_view; simpl; auto|]).
  apply Forall_nil_2.
Qed.

Lemma good_judged_session :
  session sample_service (play sample_service good_judged).
Proof.
  apply session_play. unfold good_judged.
  repeat (apply Forall_cons; split; [simpl; unfold from_view; simpl; auto|]).
  apply Forall_nil_2.
Qed.

Lemma submission_settles_witness :
  let r := play sample_service in_flight in
  pending (complete sample_service r) = None /\
  match sample_service (context (machine r)) with
  | Resolved _ =>
      machine (complete sample_service r)
      = {| value := Success; context := context (machine r) |}
  | Rejected E =>
      machine (complete sample_service r)
      = {| value := Editing Error;
           context := {| values := values (context (machine r));
                         errors := E |} |}
  end.
Proof.
  apply (submission_settles sample_service (play sample_service in_flight)).
  - apply in_flight_session.
  - reflexivity.
Defined.

Lemma success_means_resolved_witness :
  resolves (sample_service (context (machine (play sample_service good_judged)))).
Proof.
  apply (success_means_resolved sample_service (play sample_service good_judged)).
  - apply good_judged_session.
  - reflexivity.
Defined.

Lemma errors_come_from_service_witness :
  exists c,
    sample_service c
    = Rejected (errors (context (machine (play sample_service poor_judged)))).
Proof.
  apply (errors_come_from_service sample_service
           (play sample_service poor_judged)).
  - apply poor_judged_session.
  - left. reflexivity.
Defined.

(** ** The form with the sample service *)

Section App.
Variable below_100 : string -> bool.

Lemma failing_field_marked (vals : gmap string string) :
  onSubmit_errors below_100 vals <> ∅ ->
  exists f, f ∈ Index.fields
            /\ truthy (onSubmit_errors below_100 vals !! f) = true.
Proof.
  intros Hne.
  destruct (name_fails vals) eqn:Hn.
  { exists "name". split; [apply list_elem_of_here|].
    by rewrite errors_lookup_name, Hn. }
  destruct (reams_fail below_100 vals) eqn:Hr.
  { exists "reams". split; [apply list_elem_of_further, list_elem_of_here|].
    by rewrite errors_lookup_reams, Hr. }
  destruct (company_fails vals) eqn:Hc.
  { exists "company".
    split; [do 2 apply list_elem_of_further; apply list_elem_of_here|].
    rewrite errors_lookup_company. unfold company_fails in Hc.
    by destruct (negb (truthy (vals !! "company"))),
         (strict_eq (vals !! "company") "Dunder Mifflin"). }
  exfalso. apply Hne. by apply errors_empty_iff.
Qed.

Lemma rejected_errors (c : Context) (E : gmap string string) :
  onSubmit below_100 c = Rejected E ->
  E = onSubmit_errors below_100 (values c) /\ E <> ∅.
Proof.
  intros Hrej.
  destruct (onSubmit_cases below_100 c) as [[Hres _] | [Hrej' Hne]];
    [congruence|].
  split; [congruence|]. intros ->. apply Hne. congruence.
Qed.

(** X9: with the sample service, whenever the machine is in Editing.Error
    at least one of the three inputs is marked invalid. *)
Theorem error_state_marks_an_input (r : Running) :
  session (onSubmit below_100) r ->
  value (machine r) = Editing Error ->
  exists f, f ∈ Index.fields /\ Index.inputInvalid (machine r) f = true.
Proof.
  intros Hr Hv.
  destruct (session_consistent _ r Hr) as (_ & _ & _ & Herr & _).
  destruct (Herr Hv) as [c Hc]. apply rejected_errors in Hc as [HE Hne].
  unfold Index.inputInvalid. rewrite HE. apply failing_field_marked.
  by rewrite <- HE.
Qed.

(** X10: with the sample service, errors never holds a key other than the
    three fields of the form, in any state of a session. *)
Theorem errors_name_form_fields (r : Running) (k : string) :
  session (onSubmit below_100) r ->
  is_Some (errors (context (machine r)) !! k) ->
  k ∈ Index.fields.
Proof.
  intros Hr [m Hk].
  destruct (session_consistent _ r Hr) as (_ & _ & _ & _ & Hne).
  destruct Hne as [c Hc].
  { intros Hempty. rewrite Hempty, lookup_empty in Hk. discriminate. }
  apply rejected_errors in Hc as [HE _]. rewrite HE in Hk.
  destruct (decide (k ∈ Index.fields)) as [|Hout]; [done|].
  rewrite (errors_lookup_other _ _ _ Hout) in Hk. discriminate.
Qed.

(** X11: with the sample service, the machine is in Success only while
    values holds a valid sale. *)
Theorem success_means_valid_sale (r : Running) :
  session (onSubmit below_100) r ->
  value (machine r) = Success ->
  valid_sale below_100 (values (context (machine r))).
Proof.
  intros Hr Hv.
  destruct (session_consistent _ r Hr) as (_ & _ & Hok & _).
  destruct (Hok Hv) as [d Hd].
  apply checks_pass_iff, errors_empty_iff.
  destruct (onSubmit_cases below_100 (context (machine r)))
    as [[_ Hempty] | [Hrej _]]; [done | congruence].
Qed.

(** X12: submitting from either Editing substate and letting the service
    finish ends in Success with the context unchanged when values holds a
    valid sale, and otherwise in Editing.Error with values unchanged and a
    non-empty errors. *)
Theorem submit_is_judged (r : Running) (sub : EditingValue) (ctx : Context) :
  machine r = {| value := Editing sub; context := ctx |} ->
  let r' := complete (onSubmit below_100)
              (send (onSubmit below_100) r Index.handleSubmit) in
  (valid_sale below_100 (values ctx) ->
   machine r' = {| value := Success; context := ctx |}) /\
  (~ valid_sale below_100 (values ctx) ->
   machine r'
   = {| value := Editing Error;
        context := {| values := values ctx;
                      errors := onSubmit_errors below_100 (values ctx) |} |}
   /\ onSubmit_errors below_100 (values ctx) <> ∅).
Proof.
  intros Hm.
  assert (send (onSubmit below_100) r Index.handleSubmit
          = {| machine := {| value := Submitting; context := ctx |};
               pending := Some (onSubmit below_100 ctx) |}) as ->.
  { unfold send. rewrite Hm. by destruct sub. }
  unfold complete. cbn [pending].
  rewrite <- checks_pass_iff, <- errors_empty_iff.
  destruct (onSubmit_cases below_100 ctx) as [[-> Hempty] | [-> Hne]].
  - split; [reflexivity | done].
  - split; [done | intros _; by split].
Qed.

End App.

Lemma error_state_marks_an_input_witness :
  exists f, f ∈ Index.fields
            /\ Index.inputInvalid (machine (play sample_service poor_judged)) f
               = true.
Proof.
  apply (error_state_marks_an_input numeral_below_100
           (play sample_service poor_judged)).
  - apply poor_judged_session.
  - reflexivity.
Defined.

Lemma errors_name_form_fields_witness : "reams" ∈ Index.fields.
Proof.
  apply (errors_name_form_fields numeral_below_100
           (play sample_service poor_judged) "reams").
  - apply poor_judged_session.
  - exists "Not enough reams!". reflexivity.
Defined.

Lemma success_means_valid_sale_witness :
  valid_sale numeral_below_100
    (values (context (machine (play sample_service good_judged)))).
Proof.
  apply (success_means_valid_sale numeral_below_100
           (play sample_service good_judged)).
  - apply good_judged_session.
  - reflexivity.
Defined.

Lemma submit_is_judged_witness :
  let r := {| machine := {| value := Editing Error;
                            context := {| values := good_sale;
                                          errors := reams_error |} |};
              pending := None |} in
  let r' := complete sample_service (send sample_service r Index.handleSubmit) in
  (valid_sale numeral_below_100 good_sale ->
   machine r' = {| value := Success;
                   context := {| values := good_sale; errors := reams_error |} |}) /\
  (~ valid_sale numeral_below_100 good_sale ->
   machine r'
   = {| value := Editing Error;
        context := {| values := good_sale;
                      errors := onSubmit_errors numeral_below_100 good_sale |} |}
   /\ onSubmit_errors numeral_below_100 good_sale <> ∅).
Proof.
  apply (submit_is_judged numeral_below_100 _ Error
           {| values := good_sale; errors := reams_error |}).
  reflexivity.
Defined.

(** ** The view *)

(** X13: in every state the view renders exactly one of the form and the
    thanks panel. *)
Theorem one_panel (s : State) :
  Index.showsForm s = negb (Index.showsSuccess s).
Proof. by destruct s as [[[|]| |] ctx]. Qed.

(** X14: the Add more sales button never shows as loading, in any state,
    while the Submit button shows as loading exactly in Submitting. *)
Theorem again_never_loading (s : State) :
  Index.againLoading s = false /\
  (Index.submitLoading s = true <-> value s = Submitting).
Proof. by destruct s as [[[|]| |] ctx]. Qed.

(** X15: in either Editing substate, after a change of input [f] to [text]
    the input shows [text], every other input shows what it showed, no
    input changes its invalid mark, and the form is still rendered. *)
Theorem typed_text_is_shown (ctx : Context) (sub : EditingValue)
    (f text : string) :
  let s := {| value := Editing sub; context := ctx |} in
  let s' := transition s (Index.handleChange f text) in
  Index.inputValue s' f = text /\
  (forall g, g <> f -> Index.inputValue s' g = Index.inputValue s g) /\
  (forall g, Index.inputInvalid s' g = Index.inputInvalid s g) /\
  Index.showsForm s' = true.
Proof.
  assert (transition {| value := Editing sub; context := ctx |}
            (Index.handleChange f text)
          = {| value := Editing sub;
               context := {| values := <[ f := text ]> (values ctx);
                             errors := errors ctx |} |}) as Heq
    by (by destruct sub).
  cbv zeta. rewrite Heq.
  unfold Index.inputValue, Index.inputInvalid. simpl.
  repeat split.
  - rewrite lookup_insert_eq. simpl.
    by destruct (String.eqb_spec text "") as [-> | _].
  - intros g Hg. by rewrite lookup_insert_ne.
  - by destruct sub.
Qed.

(** X16: in every reachable configuration in Editing.Pristine, no input
    is marked invalid and no input has an error message. *)
Theorem pristine_form_unmarked (s : State) (f : string) :
  reachable s ->
  value s = Editing Pristine ->
  Index.inputInvalid s f = false /\ Index.errorMessage s f = None.
Proof.
  intros Hs Hv. unfold Index.inputInvalid, Index.errorMessage.
  rewrite (reachable_pristine_clean s Hs Hv), lookup_empty. by split.
Qed.

Lemma pristine_form_unmarked_witness :
  let s := run initialState [CHANGE "reams" "50"] in
  Index.inputInvalid s "reams" = false /\ Index.errorMessage s "reams" = None.
Proof.
  apply (pristine_form_unmarked (run initialState [CHANGE "reams" "50"]) "reams").
  - apply reachable_run, reachable_init.
  - reflexivity.
Defined.
